(** * freddierice/uuid: the ID and NullableID value types

    A shallow embedding of [id.go].  [ID] wraps a 16-byte UUID; it is written
    as canonical hyphenated text for storage ([String], [Value], [Scan]) and
    as compact base-57 text for JSON ([ShortString], [MarshalJSON],
    [UnmarshalJSON]).  [NullableID] pairs an [ID] with a validity flag.

    Go values are modelled as follows:
    - [string] is [String.string] (a sequence of 8-bit characters, as a Go
      string is a sequence of bytes); [[]byte] is [list byte];
    - [guuid.UUID], a [[16]byte] array, is a [list byte] whose length is 16
      ([guuid.wf]);
    - a function returning [(T, error)] returns [T * option error];
    - a method with a pointer receiver takes the receiver's value and returns
      the receiver's value after the call next to its result.

    [New] draws a random UUID and is left out. *)

From Stdlib Require Import ZArith NArith List Bool Lia Btauto.
From Stdlib Require Import Strings.String Strings.Ascii Strings.Byte.
Import ListNotations.

Local Open Scope string_scope.

(** ** Errors *)

(** The Go [error] values the package can return, one constructor per place
    an error is made.  [Wrapped] is [fmt.Errorf("<msg>: %w", err)]. *)
Inductive error : Type :=
| guuid_invalidLengthError (len : nat)
| guuid_invalidURNPrefix (prefix : string)
| guuid_invalidUUIDFormat
| shortuuid_notInAlphabet (c : ascii)
| shortuuid_outOfRange
| json_Error (msg : string)
| Wrapped (msg : string) (err : error)
| cannotScan (T : string).

(** The two error kinds of the specification. *)
Inductive ErrorKind : Type := InvalidFormat | TypeMismatch.

(** Every error made while reading text is an [InvalidFormat]; the error of
    the [default] branch of [ID.Scan] is the [TypeMismatch].  A wrapped error
    has the kind of the error it wraps. *)
Fixpoint error_kind (e : error) : ErrorKind :=
  match e with
  | Wrapped _ err => error_kind err
  | cannotScan _ => TypeMismatch
  | _ => InvalidFormat
  end.

Definition is_nil (e : option error) : bool :=
  match e with None => true | Some _ => false end.

(** ** Bytes and byte strings *)

Definition byte_of_N (n : N) : byte :=
  match Byte.of_N (n mod 256) with Some b => b | None => x00 end.

(** [s[i]] for an index the caller has checked to be in range. *)
Definition at_index (s : string) (i : nat) : ascii :=
  match String.get i s with Some c => c | None => zero end.

(** [s[i:]] *)
Definition slice_from (i : nat) (s : string) : string :=
  substring i (String.length s - i) s.

(** [s[:i]] *)
Definition slice_to (i : nat) (s : string) : string := substring 0 i s.

Fixpoint string_forallb (p : ascii -> bool) (s : string) : bool :=
  match s with
  | EmptyString => true
  | String c s' => p c && string_forallb p s'
  end.

Fixpoint string_map (f : ascii -> ascii) (s : string) : string :=
  match s with
  | EmptyString => EmptyString
  | String c s' => String (f c) (string_map f s')
  end.

(** [uuid[i] = v] on an array modelled as a list. *)
Fixpoint set_index {A} (i : nat) (v : A) (l : list A) : list A :=
  match l, i with
  | [], _ => []
  | _ :: l', O => v :: l'
  | x :: l', S i' => x :: set_index i' v l'
  end.

(** Big-endian reading and writing of an unsigned integer ([binary.BigEndian],
    or a [big.Int] read from hexadecimal digits). *)
Definition be_to_Z (l : list byte) : Z :=
  fold_left (fun acc b => acc * 256 + Z.of_N (Byte.to_N b))%Z l 0%Z.

Fixpoint Z_to_be (k : nat) (n : Z) : list byte :=
  match k with
  | O => []
  | S k' => Z_to_be k' (n / 256) ++ [byte_of_N (Z.to_N (n mod 256))]
  end.

(** ** github.com/google/uuid *)

Module guuid.

(** Modelled from the spec: package github.com/google/uuid is a dependency of
    the repository and its source is not part of it.  Section 1 of the
    specification assumes that it "parses/serializes the canonical textual
    form per the standard layout"; the definitions of this module follow the
    package's own [Parse], [xtob], [String] and [encodeHex]. *)
Definition UUID : Type := list byte.

Definition wf (u : UUID) : Prop := List.length u = 16%nat.

(** [var uuid UUID], and [uuid.Nil] *)
Definition Nil : UUID := repeat x00 16.

Definition eqb (u v : UUID) : bool :=
  if list_eq_dec Byte.byte_eq_dec u v then true else false.

(** [xvalues]: the value of a character as a hexadecimal digit, or 255. *)
Definition xvalues (c : ascii) : N :=
  let n := N_of_ascii c in
  if ((48 <=? n) && (n <=? 57))%N then (n - 48)%N
  else if ((65 <=? n) && (n <=? 70))%N then (n - 55)%N
  else if ((97 <=? n) && (n <=? 102))%N then (n - 87)%N
  else 255%N.

(** [xtob]: [(b1 << 4) | b2, b1 != 255 && b2 != 255] *)
Definition xtob (x1 x2 : ascii) : byte * bool :=
  let b1 := xvalues x1 in
  let b2 := xvalues x2 in
  (byte_of_N (N.lor (N.shiftl b1 4) b2),
   negb (b1 =? 255)%N && negb (b2 =? 255)%N).

(** The offsets of the sixteen pairs of digits in the hyphenated form. *)
Definition offsets : list nat :=
  [0; 2; 4; 6; 9; 11; 14; 16; 19; 21; 24; 26; 28; 30; 32; 34]%nat.

(** [for i, x := range [16]int{...}]: stops at the first pair that is not two
    hexadecimal digits, with the bytes read so far. *)
Fixpoint parse_pairs (s : string) (xs : list nat) (i : nat) (uuid : UUID)
  : UUID * option error :=
  match xs with
  | [] => (uuid, None)
  | x :: xs' =>
      let (v, ok) := xtob (at_index s x) (at_index s (x + 1)) in
      if negb ok then (uuid, Some guuid_invalidUUIDFormat)
      else parse_pairs s xs' (S i) (set_index i v uuid)
  end.

(** [case 32: for i := range uuid]: the byte is stored before it is checked. *)
Fixpoint parse_raw (s : string) (n : nat) (i : nat) (uuid : UUID)
  : UUID * option error :=
  match n with
  | O => (uuid, None)
  | S n' =>
      let (v, ok) := xtob (at_index s (i * 2)) (at_index s (i * 2 + 1)) in
      let uuid' := set_index i v uuid in
      if negb ok then (uuid', Some guuid_invalidUUIDFormat)
      else parse_raw s n' (S i) uuid'
  end.

Definition to_lower (c : ascii) : ascii :=
  let n := N_of_ascii c in
  if ((65 <=? n) && (n <=? 90))%N then ascii_of_N (n + 32) else c.

(** [strings.EqualFold(t, "urn:uuid:")]: no character outside ASCII folds to
    a letter of the prefix, so folding is the lower-casing of A-Z. *)
Definition EqualFold_urn (t : string) : bool :=
  String.eqb (string_map to_lower t) "urn:uuid:".

Definition hyphens_ok (s : string) : bool :=
  Ascii.eqb (at_index s 8) "-" && Ascii.eqb (at_index s 13) "-" &&
  Ascii.eqb (at_index s 18) "-" && Ascii.eqb (at_index s 23) "-".

(** The part of [Parse] after the [switch]: [s] is at least 36 bytes long. *)
Definition parse_hyphenated (s : string) : UUID * option error :=
  if negb (hyphens_ok s) then (Nil, Some guuid_invalidUUIDFormat)
  else parse_pairs s offsets 0 Nil.

(** Modelled from the spec: [Parse] of github.com/google/uuid, whose source
    is not part of the repository.  Section 4.1 names the hyphenated layout
    of 36 characters; the package's switch on [len(s)] decodes that form, the
    form with a [urn:uuid:] prefix (45), the form with one more byte at each
    end (38, only the middle 36 bytes are examined) and 32 bare digits, and
    returns an error for any other length. *)
Definition Parse (s : string) : UUID * option error :=
  let n := String.length s in
  if (n =? 36)%nat then parse_hyphenated s
  else if (n =? 36 + 9)%nat then
    if negb (EqualFold_urn (slice_to 9 s))
    then (Nil, Some (guuid_invalidURNPrefix (slice_to 9 s)))
    else parse_hyphenated (slice_from 9 s)
  else if (n =? 36 + 2)%nat then parse_hyphenated (slice_from 1 s)
  else if (n =? 32)%nat then parse_raw s 16 0 Nil
  else (Nil, Some (guuid_invalidLengthError n)).

Definition hextable : string := "0123456789abcdef".

(** [hextable[v>>4]] and [hextable[v&0x0f]] *)
Definition hex_hi (v : byte) : ascii :=
  at_index hextable (N.to_nat (N.shiftr (Byte.to_N v) 4)).

Definition hex_lo (v : byte) : ascii :=
  at_index hextable (N.to_nat (N.land (Byte.to_N v) 15)).

(** [hex.Encode]: two lower-case digits for each byte. *)
Fixpoint hex_Encode (src : list byte) : string :=
  match src with
  | [] => EmptyString
  | v :: src' =>
      String.String (hex_hi v) (String.String (hex_lo v) (hex_Encode src'))
  end.

(** [uuid[i:j]] *)
Definition sub (i j : nat) (u : UUID) : list byte := firstn (j - i) (skipn i u).

(** Modelled from the spec: [UUID.String] of github.com/google/uuid, whose
    source is not part of the repository: [encodeHex] into a 36-byte buffer,
    the lower-case 8-4-4-4-12 layout of section 3. *)
Definition String (uuid : UUID) : string :=
  hex_Encode (sub 0 4 uuid) ++ "-" ++ hex_Encode (sub 4 6 uuid) ++ "-" ++
  hex_Encode (sub 6 8 uuid) ++ "-" ++ hex_Encode (sub 8 10 uuid) ++ "-" ++
  hex_Encode (sub 10 16 uuid).

End guuid.

(** ** github.com/lithammer/shortuuid/v4 *)

Module shortuuid.

(** Modelled from the spec: package github.com/lithammer/shortuuid/v4 is a
    dependency of the repository and its source is not part of it.  Sections
    4.1 and 6 of the specification describe its default encoder: a positional
    numeral system over an ordered alphabet of 57 symbols, the 128-bit value
    written as 22 digits, most significant first, padded with the alphabet's
    first symbol; decoding fails on a symbol outside the alphabet and on a
    value that does not fit 128 bits.  The alphabet is the package's
    [DefaultAlphabet]: digits and letters without 0, 1, I, O and l. *)
Definition DefaultAlphabet : string :=
  "23456789ABCDEFGHJKLMNPQRSTUVWXYZabcdefghijkmnopqrstuvwxyz".

Definition base : Z := 57.

Definition encLen : nat := 22.

(** [alphabet.Index]: the position of a symbol, or an error. *)
Fixpoint index_from (c : ascii) (chars : string) (i : Z) : option Z :=
  match chars with
  | EmptyString => None
  | String.String a chars' =>
      if Ascii.eqb a c then Some i else index_from c chars' (i + 1)
  end.

Definition Index (c : ascii) : option Z := index_from c DefaultAlphabet 0.

(** The digits are produced least significant first and stored from the end
    of the buffer. *)
Fixpoint numToString (k : nat) (num : Z) (out : string) : string :=
  match k with
  | O => out
  | S k' =>
      numToString k' (num / base)
        (String.String (at_index DefaultAlphabet (Z.to_nat (num mod base))) out)
  end.

(** Modelled from the spec: [DefaultEncoder.Encode] of shortuuid, whose source
    is not part of the repository: the bytes read as one big-endian integer,
    written as 22 digits. *)
Definition Encode (u : guuid.UUID) : string :=
  numToString encLen (be_to_Z u) EmptyString.

Fixpoint stringToNum (s : string) (n : Z) : Z * option error :=
  match s with
  | EmptyString => (n, None)
  | String.String c s' =>
      match Index c with
      | None => (n, Some (shortuuid_notInAlphabet c))
      | Some index => stringToNum s' (n * base + index)
      end
  end.

(** Modelled from the spec: [DefaultEncoder.Decode] of shortuuid, whose source
    is not part of the repository.  It fails on the two conditions of section
    4.1 and checks no length: a string that is too short is read as if it
    were padded on the left with the alphabet's first symbol, and the empty
    string is read as zero. *)
Definition Decode (s : string) : guuid.UUID * option error :=
  match stringToNum s 0 with
  | (_, Some err) => (guuid.Nil, Some err)
  | (n, None) =>
      if (2 ^ 128 <=? n)%Z then (guuid.Nil, Some shortuuid_outOfRange)
      else (Z_to_be 16 n, None)
  end.

End shortuuid.

(** ** id.go *)

(** [type ID struct { guuid.UUID }] *)
Record ID : Type := mkID { UUID : guuid.UUID }.

(** [ID{}] *)
Definition ID_zero : ID := mkID guuid.Nil.

Definition FromUUID (u : guuid.UUID) : ID := mkID u.

Definition Parse (s : string) : ID * option error :=
  match shortuuid.Decode s with
  | (_, Some err) => (ID_zero, Some (Wrapped "failed to decode shortuuid" err))
  | (u, None) => (mkID u, None)
  end.

Definition FromString (s : string) : ID * option error :=
  match guuid.Parse s with
  | (_, Some err) => (ID_zero, Some (Wrapped "failed to parse uuid" err))
  | (u, None) => (mkID u, None)
  end.

Definition ID_String (id : ID) : string := guuid.String (UUID id).

Definition ID_ShortString (id : ID) : string := shortuuid.Encode (UUID id).

Definition ID_IsZero (id : ID) : bool := guuid.eqb (UUID id) guuid.Nil.

Definition ID_Equal (id other : ID) : bool := guuid.eqb (UUID id) (UUID other).

(** The dynamic type of the [interface{}] handed to [Scan]: [nil], the types
    the type switch names, and any other type, kept with the name [%T]
    prints for it. *)
Inductive any : Type :=
| any_nil
| any_string (v : string)
| any_bytes (v : list byte)
| any_UUID (v : guuid.UUID)
| any_other (T : string).

(** [driver.Value] holds a string, or nil. *)
Definition ID_Value (id : ID) : any * option error :=
  (any_string (guuid.String (UUID id)), None).

Definition ID_Scan (value : any) (id : ID) : ID * option error :=
  match value with
  | any_nil => (ID_zero, None)
  | any_string v =>
      match guuid.Parse v with
      | (_, Some err) => (id, Some (Wrapped "failed to scan UUID string" err))
      | (u, None) => (mkID u, None)
      end
  | any_bytes v =>
      match guuid.Parse (string_of_list_byte v) with
      | (_, Some err) => (id, Some (Wrapped "failed to scan UUID bytes" err))
      | (u, None) => (mkID u, None)
      end
  | any_UUID v => (mkID v, None)
  | any_other T => (id, Some (cannotScan T))
  end.

(** [type NullableID struct { ID ID; Valid bool }] *)
Record NullableID : Type := mkNullableID { NullableID_ID : ID; Valid : bool }.

Definition NewNullable (id : ID) : NullableID :=
  mkNullableID id (negb (ID_IsZero id)).

(** A [*ID] is [None] when it is nil. *)
Definition NullableFromPtr (id : option ID) : NullableID :=
  match id with
  | None => mkNullableID ID_zero false
  | Some i => if ID_IsZero i then mkNullableID ID_zero false
              else mkNullableID i true
  end.

Definition NullableID_Ptr (nid : NullableID) : option ID :=
  if negb (Valid nid) then None else Some (NullableID_ID nid).

Definition NullableID_Value (nid : NullableID) : any * option error :=
  if negb (Valid nid) then (any_nil, None) else ID_Value (NullableID_ID nid).

Definition NullableID_Scan (value : any) (nid : NullableID)
  : NullableID * option error :=
  match value with
  | any_nil => (mkNullableID (NullableID_ID nid) false, None)
  | _ =>
      match ID_Scan value ID_zero with
      | (_, Some err) => (nid, Some err)
      | (id, None) => (mkNullableID id true, None)
      end
  end.

(** *** The JSON methods

    [encoding/json] is part of Go's standard library.  What the package uses
    of it for a string is taken as a parameter:
    - [json_Marshal_string s] is the text [json.Marshal(s)] returns;
    - [json_Unmarshal_string data] is what [json.Unmarshal(data, &s)] leaves
      in a fresh [var s string], and the error it returns. *)
Section JSON.

Variable json_Marshal_string : string -> string.
Variable json_Unmarshal_string : string -> string * option error.

(** [json.Marshal(nil)] *)
Definition json_Marshal_nil : string * option error := ("null", None).

Definition ID_MarshalJSON (id : ID) : string * option error :=
  (json_Marshal_string (ID_ShortString id), None).

Definition ID_UnmarshalJSON (data : string) (id : ID) : ID * option error :=
  match json_Unmarshal_string data with
  | (_, Some err) => (id, Some err)
  | (s, None) =>
      match Parse s with
      | (_, Some err) => (id, Some err)
      | (parsed, None) => (parsed, None)
      end
  end.

Definition NullableID_MarshalJSON (nid : NullableID) : string * option error :=
  if negb (Valid nid) then json_Marshal_nil
  else ID_MarshalJSON (NullableID_ID nid).

Definition NullableID_UnmarshalJSON (data : string) (nid : NullableID)
  : NullableID * option error :=
  if String.eqb data "null" then (mkNullableID (NullableID_ID nid) false, None)
  else
    match ID_UnmarshalJSON data ID_zero with
    | (_, Some err) => (nid, Some err)
    | (id, None) => (mkNullableID id true, None)
    end.

End JSON.

(** [testPairs] of [TestRealUUIDPairs] *)
Definition testPairs : list (string * string) :=
  [ ("8eca1fe1-a833-4de0-b487-b54785cc656e", "TR7kT7YgYjHN5ET8Yagssh");
    ("dbf0e6e9-412d-4789-8042-b35d88d5fe80", "h9YNy27x6xdsqHTjMouA6s");
    ("47934534-601a-4ea2-9f35-28d761dbe417", "EjtEAyHfuns4hG3SwZKMhc");
    ("10fd962b-efd3-4725-b556-9a7caad7a40e", "53Kg5b2NMsBvKw8net9Mss");
    ("00000000-0000-0000-0000-000000000000", "2222222222222222222222") ].

(** ** Textual layouts

    The layouts of the specification, stated on the characters of a string
    and independently of the parsers. *)

Definition is_hex_digit (c : ascii) : bool :=
  let n := N_of_ascii c in
  ((48 <=? n) && (n <=? 57) || (97 <=? n) && (n <=? 102) ||
   (65 <=? n) && (n <=? 70))%N.

(** The positions of the four hyphens of the 8-4-4-4-12 grouping. *)
Definition hyphen_position (i : nat) : bool :=
  ((i =? 8) || (i =? 13) || (i =? 18) || (i =? 23))%nat.

(** What the canonical layout allows at position [i] of its 36. *)
Definition allowed_at (i : nat) (c : ascii) : bool :=
  if hyphen_position i then Ascii.eqb c "-" else is_hex_digit c.

(** The 36 characters of [s] from offset [off] on are hexadecimal digits in
    groups of 8-4-4-4-12 separated by hyphens. *)
Definition layout_at (s : string) (off : nat) : bool :=
  forallb (fun i => allowed_at i (at_index s (off + i))) (seq 0 36).

Definition canonical_layout (s : string) : bool :=
  (String.length s =? 36)%nat && layout_at s 0.

(** [urn:uuid:] in any letter case, then the canonical layout. *)
Definition urn_layout (s : string) : bool :=
  (String.length s =? 45)%nat && guuid.EqualFold_urn (slice_to 9 s) &&
  layout_at s 9.

(** The canonical layout between one leading and one trailing character. *)
Definition wrapped_layout (s : string) : bool :=
  (String.length s =? 38)%nat && layout_at s 1.

(** 32 hexadecimal digits and no hyphen. *)
Definition raw_layout (s : string) : bool :=
  (String.length s =? 32)%nat &&
  forallb (fun i => is_hex_digit (at_index s i)) (seq 0 32).

Definition accepted_layout (s : string) : bool :=
  canonical_layout s || urn_layout s || wrapped_layout s || raw_layout s.

(** [c] is one of the 57 symbols of the compact alphabet. *)
Definition in_alphabet (c : ascii) : bool :=
  existsb (Ascii.eqb c) (list_ascii_of_string shortuuid.DefaultAlphabet).

(** [s] with [k] copies of the alphabet's first symbol in front. *)
Fixpoint pad_left (k : nat) (s : string) : string :=
  match k with
  | O => s
  | S k' => String (at_index shortuuid.DefaultAlphabet 0) (pad_left k' s)
  end.

(** [s] with the character at index [i] replaced by [c]. *)
Fixpoint string_set (i : nat) (c : ascii) (s : string) : string :=
  match s, i with
  | EmptyString, _ => EmptyString
  | String _ s', O => String c s'
  | String a s', S i' => String a (string_set i' c s')
  end.

(** Both characters of the pair at offset [x] are hexadecimal digits. *)
Definition pair_ok (s : string) (x : nat) : bool :=
  is_hex_digit (at_index s x) && is_hex_digit (at_index s (x + 1)).

(** A call returned an error of kind [k]. *)
Definition fails_with {A : Type} (k : ErrorKind) (r : A * option error) : Prop :=
  exists e, snd r = Some e /\ error_kind e = k.

(** The shapes of a storage value the specification tells apart. *)
Definition is_null (v : any) : bool :=
  match v with any_nil => true | _ => false end.

Definition is_text (v : any) : bool :=
  match v with any_string _ => true | _ => false end.

Definition is_byte_sequence (v : any) : bool :=
  match v with any_bytes _ => true | _ => false end.

Definition is_raw_UUID (v : any) : bool :=
  match v with any_UUID _ => true | _ => false end.

(** A call succeeded when [ok] holds and returned an [InvalidFormat] error
    otherwise. *)
Definition succeeds_iff {A : Type} (ok : bool) (r : A * option error) : Prop :=
  if ok then snd r = None else fails_with InvalidFormat r.

(** The validity flag says whether the wrapped ID is non-zero, as the two
    constructors set it. *)
Definition consistent (nid : NullableID) : Prop :=
  Valid nid = negb (ID_IsZero (NullableID_ID nid)).

(** ** Values used in examples *)

(** The bytes of [8eca1fe1-a833-4de0-b487-b54785cc656e]. *)
Definition sample_UUID : guuid.UUID :=
  [x8e; xca; x1f; xe1; xa8; x33; x4d; xe0; xb4; x87; xb5; x47; x85; xcc; x65; x6e].

(** An instance of the [encoding/json] parameters for running the JSON
    methods on examples.  It covers [null] and string literals without escape
    sequences, which is all the examples use, and reports an error on any
    other text. *)
Definition quote : ascii := ascii_of_N 34.

Definition backslash : ascii := ascii_of_N 92.

Fixpoint unquoted_body (s : string) : option string :=
  match s with
  | EmptyString => None
  | String c s' =>
      match s' with
      | EmptyString => if Ascii.eqb c quote then Some EmptyString else None
      | _ =>
          if Ascii.eqb c quote || Ascii.eqb c backslash then None
          else option_map (String c) (unquoted_body s')
      end
  end.

(** [json.Marshal] of a string that needs no escape sequence. *)
Definition sample_Marshal_string (s : string) : string :=
  String quote (s ++ String quote EmptyString).

Definition sample_Unmarshal_string (data : string) : string * option error :=
  if String.eqb data "null" then (EmptyString, None)
  else
    match data with
    | String c body =>
        if Ascii.eqb c quote then
          match unquoted_body body with
          | Some s => (s, None)
          | None => (EmptyString, Some (json_Error "invalid character"))
          end
        else (EmptyString, Some (json_Error "cannot unmarshal into string"))
    | EmptyString => (EmptyString, Some (json_Error "unexpected end of JSON input"))
    end.

(** The JSON string literal of [0], a character outside the compact
    alphabet. *)
Definition sample_bad_data : string := sample_Marshal_string "0".

(** The JSON literal of the empty string. *)
Definition sample_empty_data : string := sample_Marshal_string EmptyString.

(** ** Bytes and big-endian integers *)

Lemma byte_of_N_to_N (b : byte) : byte_of_N (Byte.to_N b) = b.
Proof.
  unfold byte_of_N.
  assert (Hb : (Byte.to_N b mod 256 = Byte.to_N b)%N).
  { apply N.mod_small. pose proof (Byte.to_N_bounded b). lia. }
  rewrite Hb, Byte.of_to_N. reflexivity.
Qed.

Lemma be_to_Z_snoc (l : list byte) (b : byte) :
  be_to_Z (l ++ [b]) = (be_to_Z l * 256 + Z.of_N (Byte.to_N b))%Z.
Proof. unfold be_to_Z. rewrite fold_left_app. reflexivity. Qed.

Lemma be_to_Z_range (l : list byte) :
  (0 <= be_to_Z l < 256 ^ Z.of_nat (List.length l))%Z.
Proof.
  induction l as [|b l IH] using rev_ind.
  - cbn. lia.
  - rewrite be_to_Z_snoc, length_app, Nat.add_1_r, Nat2Z.inj_succ,
      Z.pow_succ_r by lia.
    pose proof (Byte.to_N_bounded b). lia.
Qed.

Lemma Z_to_be_of_be (l : list byte) : Z_to_be (List.length l) (be_to_Z l) = l.
Proof.
  induction l as [|b l IH] using rev_ind.
  - reflexivity.
  - rewrite length_app, Nat.add_1_r, be_to_Z_snoc. cbn [Z_to_be].
    pose proof (Byte.to_N_bounded b) as Hb.
    replace ((be_to_Z l * 256 + Z.of_N (Byte.to_N b)) / 256)%Z
      with (be_to_Z l) by (apply Z.div_unique with (Z.of_N (Byte.to_N b)); lia).
    replace ((be_to_Z l * 256 + Z.of_N (Byte.to_N b)) mod 256)%Z
      with (Z.of_N (Byte.to_N b)) by (apply Z.mod_unique with (be_to_Z l); lia).
    rewrite IH, N2Z.id, byte_of_N_to_N. reflexivity.
Qed.

(** ** Strings *)

Lemma string_app_assoc (x y z : string) : (x ++ y) ++ z = x ++ (y ++ z).
Proof. induction x as [|c x IH]; cbn; [reflexivity | now rewrite IH]. Qed.

Lemma string_app_nil_r (x : string) : x ++ "" = x.
Proof. induction x as [|c x IH]; cbn; [reflexivity | now rewrite IH]. Qed.

Lemma string_app_length (x y : string) :
  String.length (x ++ y) = (String.length x + String.length y)%nat.
Proof. induction x as [|c x IH]; cbn; [reflexivity | now rewrite IH]. Qed.

Lemma slice_to_app (x y : string) : slice_to (String.length x) (x ++ y) = x.
Proof.
  unfold slice_to. induction x as [|c x IH]; cbn.
  - destruct y; reflexivity.
  - now rewrite IH.
Qed.

Lemma slice_to_length (n : nat) (s : string) :
  (n <= String.length s)%nat -> String.length (slice_to n s) = n.
Proof.
  unfold slice_to. revert n. induction s as [|c s IH]; intros [|n] H; cbn in *;
    try reflexivity; try lia.
  rewrite IH by lia. reflexivity.
Qed.

(** ** The compact encoding *)

Lemma Index_digit (d : Z) :
  (0 <= d < shortuuid.base)%Z ->
  shortuuid.Index (at_index shortuuid.DefaultAlphabet (Z.to_nat d)) = Some d.
Proof.
  intros Hd.
  assert (Hall : forallb (fun n =>
            match shortuuid.Index (at_index shortuuid.DefaultAlphabet n) with
            | Some i => (i =? Z.of_nat n)%Z
            | None => false
            end) (seq 0 57) = true) by (vm_compute; reflexivity).
  rewrite forallb_forall in Hall.
  specialize (Hall (Z.to_nat d)).
  unfold shortuuid.base in Hd.
  rewrite in_seq in Hall. specialize (Hall ltac:(lia)).
  destruct (shortuuid.Index _) as [i|]; [|discriminate].
  apply Z.eqb_eq in Hall. f_equal. lia.
Qed.

Lemma pow_base_pos (k : nat) : (0 < shortuuid.base ^ Z.of_nat k)%Z.
Proof. apply Z.pow_pos_nonneg; unfold shortuuid.base; lia. Qed.

Lemma stringToNum_numToString (k : nat) :
  forall (n : Z) (out : string) (acc : Z),
    (0 <= n)%Z ->
    shortuuid.stringToNum (shortuuid.numToString k n out) acc =
    shortuuid.stringToNum out
      (acc * shortuuid.base ^ Z.of_nat k + n mod shortuuid.base ^ Z.of_nat k)%Z.
Proof.
  induction k as [|k IH]; intros n out acc Hn.
  - cbn [shortuuid.numToString]. change (Z.of_nat 0) with 0%Z.
    rewrite Z.pow_0_r, Z.mod_1_r. f_equal. lia.
  - cbn [shortuuid.numToString].
    assert (Hb : (0 < shortuuid.base)%Z) by (unfold shortuuid.base; lia).
    rewrite IH by (apply Z.div_pos; lia).
    cbn [shortuuid.stringToNum].
    rewrite Index_digit by (apply Z.mod_pos_bound; lia).
    f_equal.
    rewrite Nat2Z.inj_succ, Z.pow_succ_r by lia.
    pose proof (pow_base_pos k).
    rewrite (Z.rem_mul_r n shortuuid.base (shortuuid.base ^ Z.of_nat k)) by lia.
    ring.
Qed.

Lemma numToString_app (k : nat) :
  forall (n : Z) (out : string),
    shortuuid.numToString k n out = shortuuid.numToString k n "" ++ out.
Proof.
  induction k as [|k IH]; intros n out; cbn [shortuuid.numToString].
  - reflexivity.
  - rewrite IH. rewrite (IH _ (String.String _ "")).
    rewrite string_app_assoc. reflexivity.
Qed.

Lemma numToString_length (k : nat) :
  forall (n : Z), String.length (shortuuid.numToString k n "") = k.
Proof.
  induction k as [|k IH]; intros n; cbn [shortuuid.numToString].
  - reflexivity.
  - rewrite numToString_app, string_app_length, IH. cbn. lia.
Qed.

Lemma numToString_split (a b : nat) :
  forall (n : Z),
    (0 <= n)%Z ->
    shortuuid.numToString (a + b) n "" =
    shortuuid.numToString a (n / shortuuid.base ^ Z.of_nat b) "" ++
    shortuuid.numToString b n "".
Proof.
  induction b as [|b IH]; intros n Hn.
  - rewrite Nat.add_0_r. change (Z.of_nat 0) with 0%Z.
    rewrite Z.pow_0_r, Z.div_1_r. cbn [shortuuid.numToString].
    now rewrite string_app_nil_r.
  - rewrite Nat.add_succ_r. cbn [shortuuid.numToString].
    assert (Hb : (0 < shortuuid.base)%Z) by (unfold shortuuid.base; lia).
    rewrite numToString_app, IH by (apply Z.div_pos; lia).
    rewrite (numToString_app b _ (String.String _ _)).
    rewrite string_app_assoc.
    rewrite Nat2Z.inj_succ, Z.pow_succ_r by lia.
    pose proof (pow_base_pos b).
    rewrite Z.div_div by lia. reflexivity.
Qed.

Lemma Decode_Encode (u : guuid.UUID) :
  guuid.wf u -> shortuuid.Decode (shortuuid.Encode u) = (u, None).
Proof.
  intros Hu. unfold shortuuid.Decode, shortuuid.Encode, shortuuid.encLen.
  unfold guuid.wf in Hu.
  pose proof (be_to_Z_range u) as Hr. rewrite Hu in Hr.
  rewrite stringToNum_numToString by lia. cbn [shortuuid.stringToNum].
  rewrite Z.mul_0_l, Z.add_0_l.
  assert (H128 : (2 ^ 128 <= shortuuid.base ^ Z.of_nat 22)%Z)
    by (vm_compute; discriminate).
  change (256 ^ Z.of_nat 16)%Z with (2 ^ 128)%Z in Hr.
  rewrite Z.mod_small by lia.
  destruct (Z.leb_spec (2 ^ 128) (be_to_Z u)) as [Hge|_]; [lia|].
  pose proof (Z_to_be_of_be u) as E. rewrite Hu in E. rewrite E. reflexivity.
Qed.

(** ** The canonical text *)

Lemma xtob_hex (v : byte) :
  guuid.xtob (guuid.hex_hi v) (guuid.hex_lo v) = (v, true).
Proof. destruct v; vm_compute; reflexivity. Qed.

Lemma String_length (u : guuid.UUID) :
  guuid.wf u -> String.length (guuid.String u) = 36%nat.
Proof.
  unfold guuid.wf. intros Hu.
  do 17 (destruct u as [|? u]; try discriminate Hu).
  reflexivity.
Qed.

Lemma Parse_String (u : guuid.UUID) :
  guuid.wf u -> guuid.Parse (guuid.String u) = (u, None).
Proof.
  unfold guuid.wf. intros Hu.
  do 17 (destruct u as [|? u]; try discriminate Hu). clear Hu.
  unfold guuid.Parse, guuid.parse_hyphenated.
  cbn -[guuid.xtob guuid.hex_hi guuid.hex_lo].
  rewrite !xtob_hex. reflexivity.
Qed.

Lemma xtob_ok (x1 x2 : ascii) :
  snd (guuid.xtob x1 x2) = is_hex_digit x1 && is_hex_digit x2.
Proof.
  assert (H : forall c, negb (guuid.xvalues c =? 255)%N = is_hex_digit c).
  { intros [[] [] [] [] [] [] [] []]; vm_compute; reflexivity. }
  unfold guuid.xtob. cbn [snd]. now rewrite !H.
Qed.

Lemma parse_pairs_nil (s : string) (xs : list nat) :
  forall (i : nat) (u : guuid.UUID),
    is_nil (snd (guuid.parse_pairs s xs i u)) = forallb (pair_ok s) xs.
Proof.
  induction xs as [|x xs IH]; intros i u; cbn [guuid.parse_pairs forallb].
  - reflexivity.
  - pose proof (xtob_ok (at_index s x) (at_index s (x + 1))) as Hx.
    destruct (guuid.xtob _ _) as [v ok]. cbn [snd] in Hx.
    unfold pair_ok at 1. rewrite <- Hx.
    destruct ok; cbn; [apply IH | reflexivity].
Qed.

Lemma parse_pairs_error (s : string) (xs : list nat) :
  forall (i : nat) (u : guuid.UUID) (e : error),
    snd (guuid.parse_pairs s xs i u) = Some e -> e = guuid_invalidUUIDFormat.
Proof.
  induction xs as [|x xs IH]; intros i u e; cbn [guuid.parse_pairs].
  - discriminate.
  - destruct (guuid.xtob _ _) as [v [|]]; cbn.
    + apply IH.
    + congruence.
Qed.

Lemma parse_raw_nil (s : string) (n : nat) :
  forall (i : nat) (u : guuid.UUID),
    is_nil (snd (guuid.parse_raw s n i u)) =
    forallb (fun j => pair_ok s (j * 2)) (seq i n).
Proof.
  induction n as [|n IH]; intros i u; cbn [guuid.parse_raw forallb seq].
  - reflexivity.
  - pose proof (xtob_ok (at_index s (i * 2)) (at_index s (i * 2 + 1))) as Hx.
    destruct (guuid.xtob _ _) as [v ok]. cbn [snd] in Hx.
    unfold pair_ok at 1. rewrite <- Hx.
    destruct ok; cbn; [apply IH | reflexivity].
Qed.

Lemma parse_raw_error (s : string) (n : nat) :
  forall (i : nat) (u : guuid.UUID) (e : error),
    snd (guuid.parse_raw s n i u) = Some e -> e = guuid_invalidUUIDFormat.
Proof.
  induction n as [|n IH]; intros i u e; cbn [guuid.parse_raw].
  - discriminate.
  - destruct (guuid.xtob _ _) as [v [|]]; cbn.
    + apply IH.
    + congruence.
Qed.

Lemma parse_hyphenated_nil (t s : string) (off : nat) :
  (forall i, (i < 36)%nat -> at_index t i = at_index s (off + i)) ->
  is_nil (snd (guuid.parse_hyphenated t)) = layout_at s off.
Proof.
  intros H.
  assert (E : is_nil (snd (guuid.parse_hyphenated t)) =
              guuid.hyphens_ok t && forallb (pair_ok t) guuid.offsets).
  { unfold guuid.parse_hyphenated.
    destruct (guuid.hyphens_ok t); cbn [negb andb];
      [apply parse_pairs_nil | reflexivity]. }
  rewrite E. clear E.
  unfold guuid.hyphens_ok, layout_at, guuid.offsets, pair_ok.
  cbn [forallb seq allowed_at hyphen_position Nat.eqb orb Nat.add].
  rewrite !H by lia.
  repeat match goal with
         | |- context [is_hex_digit (at_index s ?k)] =>
             generalize (is_hex_digit (at_index s k)); intro
         | |- context [Ascii.eqb (at_index s ?k) ?c] =>
             generalize (Ascii.eqb (at_index s k) c); intro
         end.
  btauto.
Qed.

Lemma at_index_slice_from (k : nat) (s : string) (i : nat) :
  (i + k < String.length s)%nat ->
  at_index (slice_from k s) i = at_index s (k + i).
Proof.
  intros H. unfold at_index, slice_from.
  rewrite substring_correct1 by lia. now rewrite Nat.add_comm.
Qed.

Lemma raw_pairs (s : string) :
  forallb (fun j => pair_ok s (j * 2)) (seq 0 16) =
  forallb (fun i => is_hex_digit (at_index s i)) (seq 0 32).
Proof.
  unfold pair_ok. cbn [forallb seq Nat.mul Nat.add].
  repeat match goal with
         | |- context [is_hex_digit (at_index s ?k)] =>
             generalize (is_hex_digit (at_index s k)); intro
         end.
  btauto.
Qed.

Lemma Parse_nil (s : string) :
  is_nil (snd (guuid.Parse s)) = accepted_layout s.
Proof.
  unfold guuid.Parse, accepted_layout, canonical_layout, urn_layout,
    wrapped_layout, raw_layout.
  destruct (Nat.eqb_spec (String.length s) 36) as [E|N36].
  { rewrite E. cbn [Nat.eqb andb orb]. rewrite !orb_false_r.
    apply parse_hyphenated_nil. reflexivity. }
  destruct (Nat.eqb_spec (String.length s) (36 + 9)) as [E|N45].
  { rewrite E. cbn [Nat.eqb andb orb Nat.add]. rewrite !orb_false_r.
    destruct (guuid.EqualFold_urn (slice_to 9 s)); cbn [negb andb snd is_nil].
    - apply parse_hyphenated_nil. intros i Hi.
      apply at_index_slice_from. lia.
    - reflexivity. }
  destruct (Nat.eqb_spec (String.length s) (36 + 2)) as [E|N38].
  { rewrite E. cbn [Nat.eqb andb orb Nat.add]. rewrite !orb_false_r.
    apply parse_hyphenated_nil. intros i Hi.
    apply at_index_slice_from. lia. }
  cbn [Nat.add] in N45, N38.
  destruct (Nat.eqb_spec (String.length s) 45) as [|_]; [contradiction|].
  destruct (Nat.eqb_spec (String.length s) 38) as [|_]; [contradiction|].
  cbn [andb orb].
  destruct (Nat.eqb_spec (String.length s) 32) as [E|N32]; cbn [andb].
  - rewrite parse_raw_nil. apply raw_pairs.
  - reflexivity.
Qed.

Lemma Parse_error_kind (s : string) (e : error) :
  snd (guuid.Parse s) = Some e -> error_kind e = InvalidFormat.
Proof.
  assert (Hh : forall t, snd (guuid.parse_hyphenated t) = Some e ->
                         error_kind e = InvalidFormat).
  { intros t. unfold guuid.parse_hyphenated.
    destruct (guuid.hyphens_ok t); cbn [negb snd].
    - intros H. apply parse_pairs_error in H. now subst.
    - intros H. now inversion H. }
  unfold guuid.Parse.
  destruct (String.length s =? 36)%nat; [apply Hh|].
  destruct (String.length s =? 36 + 9)%nat.
  { destruct (guuid.EqualFold_urn _); cbn [negb snd]; [apply Hh|].
    intros H. now inversion H. }
  destruct (String.length s =? 36 + 2)%nat; [apply Hh|].
  destruct (String.length s =? 32)%nat.
  - intros H. apply parse_raw_error in H. now subst.
  - intros H. now inversion H.
Qed.

(** ** Rejected and accepted texts *)

Lemma guuid_eqb_refl (u : guuid.UUID) : guuid.eqb u u = true.
Proof.
  unfold guuid.eqb. destruct (list_eq_dec Byte.byte_eq_dec u u); congruence.
Qed.

Lemma guuid_eqb_eq (u v : guuid.UUID) : guuid.eqb u v = true <-> u = v.
Proof.
  unfold guuid.eqb. destruct (list_eq_dec Byte.byte_eq_dec u v);
    split; congruence.
Qed.

Lemma FromString_nil (s : string) :
  is_nil (snd (FromString s)) = accepted_layout s.
Proof.
  rewrite <- Parse_nil. unfold FromString.
  destruct (guuid.Parse s) as [u [e|]]; reflexivity.
Qed.

Lemma FromString_error_kind (s : string) (e : error) :
  snd (FromString s) = Some e -> error_kind e = InvalidFormat.
Proof.
  unfold FromString.
  destruct (guuid.Parse s) as [u [e'|]] eqn:E; cbn [snd]; [|discriminate].
  intros H. inversion H. subst e. cbn [error_kind].
  apply (Parse_error_kind s). now rewrite E.
Qed.

Lemma FromString_fails (s : string) :
  accepted_layout s = false -> fails_with InvalidFormat (FromString s).
Proof.
  intros H. rewrite <- FromString_nil in H.
  destruct (snd (FromString s)) as [e|] eqn:E; [|discriminate].
  exists e. split; [assumption|]. now apply (FromString_error_kind s).
Qed.

Lemma string_set_length (i : nat) (c : ascii) (s : string) :
  String.length (string_set i c s) = String.length s.
Proof.
  revert i. induction s as [|a s IH]; intros [|i]; cbn; try reflexivity.
  now rewrite IH.
Qed.

Lemma at_index_string_set (i : nat) (c : ascii) (s : string) :
  (i < String.length s)%nat -> at_index (string_set i c s) i = c.
Proof.
  revert i. induction s as [|a s IH]; intros [|i] H; cbn in *; try lia.
  - reflexivity.
  - apply IH. lia.
Qed.

Lemma at_index_slice_to (n i : nat) (s : string) :
  (i < n)%nat -> at_index (slice_to n s) i = at_index s i.
Proof.
  intros H. unfold at_index, slice_to.
  rewrite substring_correct1 by lia. now rewrite Nat.add_0_r.
Qed.

Lemma layout_at_false (s : string) (off i : nat) :
  (i < 36)%nat -> allowed_at i (at_index s (off + i)) = false ->
  layout_at s off = false.
Proof.
  intros Hi Hc. unfold layout_at.
  destruct (forallb _ _) eqn:E; [|reflexivity].
  rewrite forallb_forall in E. rewrite E in Hc; [discriminate|].
  apply in_seq. lia.
Qed.

Lemma altered_not_accepted (s : string) (i : nat) (c : ascii) :
  String.length s = 36%nat -> (i < 36)%nat -> allowed_at i c = false ->
  accepted_layout (string_set i c s) = false.
Proof.
  intros Hs Hi Hc.
  unfold accepted_layout, canonical_layout, urn_layout, wrapped_layout,
    raw_layout.
  rewrite string_set_length, Hs. cbn [Nat.eqb andb orb].
  rewrite !orb_false_r.
  apply layout_at_false with i; [assumption|].
  cbn [Nat.add]. now rewrite at_index_string_set by lia.
Qed.

Lemma String_hyphen (u : guuid.UUID) :
  guuid.wf u -> at_index (guuid.String u) 8 = "-"%char.
Proof.
  unfold guuid.wf. intros Hu.
  do 17 (destruct u as [|? u]; try discriminate Hu).
  reflexivity.
Qed.

Lemma truncated_not_accepted (u : guuid.UUID) (n : nat) :
  guuid.wf u -> (n < 36)%nat ->
  accepted_layout (slice_to n (guuid.String u)) = false.
Proof.
  intros Hu Hn.
  pose proof (String_length u Hu) as HL.
  unfold accepted_layout, canonical_layout, urn_layout, wrapped_layout,
    raw_layout.
  rewrite slice_to_length by lia.
  destruct (Nat.eqb_spec n 36); [lia|].
  destruct (Nat.eqb_spec n 45); [lia|].
  destruct (Nat.eqb_spec n 38); [lia|].
  cbn [andb orb].
  destruct (Nat.eqb_spec n 32) as [E|]; [|reflexivity].
  cbn [andb].
  destruct (forallb _ _) eqn:F; [|reflexivity].
  rewrite forallb_forall in F. specialize (F 8%nat).
  rewrite at_index_slice_to, String_hyphen in F by (assumption || lia).
  assert (Hin : In 8%nat (seq 0 32)) by (apply in_seq; lia).
  specialize (F Hin). discriminate F.
Qed.

Lemma Index_None (c : ascii) :
  shortuuid.Index c = None <-> in_alphabet c = false.
Proof.
  unfold shortuuid.Index, in_alphabet.
  generalize 0%Z. induction shortuuid.DefaultAlphabet as [|a chars IH];
    intros i; cbn [shortuuid.index_from list_ascii_of_string existsb].
  - tauto.
  - rewrite (Ascii.eqb_sym c a). destruct (Ascii.eqb a c); cbn [orb].
    + split; discriminate.
    + apply IH.
Qed.

Lemma stringToNum_outside (s : string) :
  forall (acc : Z),
    string_forallb in_alphabet s = false ->
    exists n c, shortuuid.stringToNum s acc = (n, Some (shortuuid_notInAlphabet c)).
Proof.
  induction s as [|a s IH]; intros acc H; cbn [string_forallb] in H.
  - discriminate.
  - cbn [shortuuid.stringToNum].
    destruct (shortuuid.Index a) as [i|] eqn:E.
    + apply IH. destruct (in_alphabet a) eqn:Ea; [exact H|].
      apply Index_None in Ea. congruence.
    + eauto.
Qed.

Lemma Parse_outside (s : string) :
  string_forallb in_alphabet s = false -> fails_with InvalidFormat (Parse s).
Proof.
  intros H. unfold Parse, shortuuid.Decode.
  destruct (stringToNum_outside s 0 H) as (n & c & E). rewrite E.
  eexists. split; reflexivity.
Qed.

Lemma string_set_outside (i : nat) (c : ascii) (s : string) :
  (i < String.length s)%nat -> in_alphabet c = false ->
  string_forallb in_alphabet (string_set i c s) = false.
Proof.
  revert i. induction s as [|a s IH]; intros [|i] H Hc;
    cbn [string_set string_forallb String.length] in *; try lia.
  - now rewrite Hc.
  - rewrite IH by (assumption || lia). apply andb_false_r.
Qed.

Lemma Encode_prefix (u : guuid.UUID) (n : nat) :
  (n <= 22)%nat ->
  slice_to n (shortuuid.Encode u) =
  shortuuid.numToString n
    (be_to_Z u / shortuuid.base ^ Z.of_nat (22 - n)) EmptyString.
Proof.
  intros Hn. unfold shortuuid.Encode, shortuuid.encLen.
  replace 22%nat with (n + (22 - n))%nat at 1 by lia.
  rewrite numToString_split by apply be_to_Z_range.
  rewrite <- (numToString_length n
    (be_to_Z u / shortuuid.base ^ Z.of_nat (22 - n))) at 1.
  apply slice_to_app.
Qed.

Lemma Parse_prefix (u : guuid.UUID) (n : nat) :
  guuid.wf u -> (n <= 22)%nat ->
  snd (Parse (slice_to n (shortuuid.Encode u))) = None.
Proof.
  intros Hu Hn. unfold guuid.wf in Hu.
  pose proof (be_to_Z_range u) as Hr. rewrite Hu in Hr.
  change (256 ^ Z.of_nat 16)%Z with (2 ^ 128)%Z in Hr.
  rewrite Encode_prefix by assumption.
  unfold Parse, shortuuid.Decode.
  pose proof (pow_base_pos (22 - n)) as Hp.
  pose proof (pow_base_pos n) as Hq.
  set (m := (be_to_Z u / shortuuid.base ^ Z.of_nat (22 - n))%Z).
  assert (Hm : (0 <= m <= be_to_Z u)%Z).
  { subst m. split.
    - apply Z.div_pos; lia.
    - apply Z.div_le_upper_bound; nia. }
  rewrite stringToNum_numToString by lia. cbn [shortuuid.stringToNum].
  pose proof (Z.mod_pos_bound m (shortuuid.base ^ Z.of_nat n) Hq).
  pose proof (Z.mod_le m (shortuuid.base ^ Z.of_nat n) ltac:(lia) Hq).
  destruct (Z.leb_spec (2 ^ 128)
              (0 * shortuuid.base ^ Z.of_nat n +
               m mod shortuuid.base ^ Z.of_nat n)); [lia|].
  reflexivity.
Qed.

Lemma Parse_prefix_value (u : guuid.UUID) (n : nat) :
  guuid.wf u -> (n <= 22)%nat ->
  Parse (slice_to n (shortuuid.Encode u)) =
    (mkID (Z_to_be 16 (be_to_Z u / shortuuid.base ^ Z.of_nat (22 - n))), None).
Proof.
  intros Hu Hn. unfold guuid.wf in Hu.
  pose proof (be_to_Z_range u) as Hr. rewrite Hu in Hr.
  change (256 ^ Z.of_nat 16)%Z with (2 ^ 128)%Z in Hr.
  rewrite Encode_prefix by assumption.
  unfold Parse, shortuuid.Decode.
  pose proof (pow_base_pos (22 - n)) as Hp.
  pose proof (pow_base_pos n) as Hq.
  assert (H22 : (shortuuid.base ^ Z.of_nat (22 - n) * shortuuid.base ^ Z.of_nat n
                 = shortuuid.base ^ Z.of_nat 22)%Z).
  { rewrite <- Z.pow_add_r by lia. f_equal. lia. }
  assert (H128 : (2 ^ 128 <= shortuuid.base ^ Z.of_nat 22)%Z)
    by (vm_compute; discriminate).
  set (m := (be_to_Z u / shortuuid.base ^ Z.of_nat (22 - n))%Z).
  assert (Hm : (0 <= m <= be_to_Z u)%Z).
  { subst m. split.
    - apply Z.div_pos; lia.
    - apply Z.div_le_upper_bound; nia. }
  assert (Hlt : (m < shortuuid.base ^ Z.of_nat n)%Z).
  { subst m. apply Z.div_lt_upper_bound; lia. }
  rewrite stringToNum_numToString by lia. cbn [shortuuid.stringToNum].
  rewrite Z.mul_0_l, Z.add_0_l, Z.mod_small by lia.
  destruct (Z.leb_spec (2 ^ 128) m); [lia|].
  reflexivity.
Qed.

Lemma Parse_pad_left (k : nat) (s : string) : Parse (pad_left k s) = Parse s.
Proof.
  unfold Parse, shortuuid.Decode.
  assert (E : shortuuid.stringToNum (pad_left k s) 0 =
              shortuuid.stringToNum s 0).
  { induction k as [|k IH]; [reflexivity|].
    cbn [pad_left shortuuid.stringToNum]. exact IH. }
  now rewrite E.
Qed.

(** ** Round trips *)

(** C1. For every 128-bit UUID value [x], decoding the compact encoding of
    [x] yields [x] back: [Parse] of [FromUUID(x).ShortString()] succeeds and
    the resulting ID equals [FromUUID(x)]. *)
Theorem compact_round_trip (x : guuid.UUID) :
  guuid.wf x ->
  Parse (ID_ShortString (FromUUID x)) = (FromUUID x, None) /\
  ID_Equal (fst (Parse (ID_ShortString (FromUUID x)))) (FromUUID x) = true.
Proof.
  intros Hx.
  assert (E : Parse (ID_ShortString (FromUUID x)) = (FromUUID x, None)).
  { unfold Parse, ID_ShortString, FromUUID. cbn [UUID].
    now rewrite Decode_Encode. }
  split; [exact E|]. rewrite E. apply guuid_eqb_refl.
Qed.

Lemma compact_round_trip_sample :
  guuid.wf sample_UUID /\
  Parse (ID_ShortString (FromUUID sample_UUID)) = (FromUUID sample_UUID, None) /\
  ID_Equal (fst (Parse (ID_ShortString (FromUUID sample_UUID))))
    (FromUUID sample_UUID) = true.
Proof.
  split; [reflexivity | apply (compact_round_trip sample_UUID); reflexivity].
Defined.

(** C2. For every 128-bit UUID value [x], parsing the canonical hyphenated
    text of [x] yields [x] back: [FromString] of [FromUUID(x).String()]
    succeeds and the resulting ID equals [FromUUID(x)]. *)
Theorem canonical_round_trip (x : guuid.UUID) :
  guuid.wf x ->
  FromString (ID_String (FromUUID x)) = (FromUUID x, None) /\
  ID_Equal (fst (FromString (ID_String (FromUUID x)))) (FromUUID x) = true.
Proof.
  intros Hx.
  assert (E : FromString (ID_String (FromUUID x)) = (FromUUID x, None)).
  { unfold FromString, ID_String, FromUUID. cbn [UUID].
    now rewrite Parse_String. }
  split; [exact E|]. rewrite E. apply guuid_eqb_refl.
Qed.

Lemma canonical_round_trip_sample :
  guuid.wf sample_UUID /\
  FromString (ID_String (FromUUID sample_UUID)) = (FromUUID sample_UUID, None) /\
  ID_Equal (fst (FromString (ID_String (FromUUID sample_UUID))))
    (FromUUID sample_UUID) = true.
Proof.
  split; [reflexivity | apply (canonical_round_trip sample_UUID); reflexivity].
Defined.

(** C3. For each of the five pairs of [TestRealUUIDPairs], [FromString] of
    the canonical string succeeds and [ShortString] of the result is the
    paired compact string, and [Parse] of the compact string succeeds and
    [String] of the result is the paired canonical string. *)
Theorem real_uuid_pairs :
  List.length testPairs = 5%nat /\
  In ("00000000-0000-0000-0000-000000000000", "2222222222222222222222")
    testPairs /\
  Forall (fun pair : string * string =>
            let uuidStr := fst pair in
            let shortUUID := snd pair in
            snd (FromString uuidStr) = None /\
            ID_ShortString (fst (FromString uuidStr)) = shortUUID /\
            snd (Parse shortUUID) = None /\
            ID_String (fst (Parse shortUUID)) = uuidStr)
         testPairs.
Proof.
  split; [reflexivity|]. split; [unfold testPairs; cbn; tauto|].
  repeat constructor; vm_compute; reflexivity.
Qed.

(** ** What the parsers accept *)

Lemma Scan_string_succeeds_iff (s : string) (id : ID) :
  succeeds_iff (accepted_layout s) (ID_Scan (any_string s) id).
Proof.
  unfold succeeds_iff, fails_with. rewrite <- Parse_nil. cbn [ID_Scan].
  destruct (guuid.Parse s) as [u [e|]] eqn:E; cbn [snd is_nil].
  - eexists. split; [reflexivity|]. cbn [error_kind].
    apply (Parse_error_kind s). now rewrite E.
  - reflexivity.
Qed.

(** C4, as the code has it.  [FromString] and the string and byte branches
    of [ID.Scan] succeed on exactly four layouts and return an
    [InvalidFormat] error on every other input: the 36-character hyphenated
    layout of hexadecimal digits in either letter case; that layout after a
    [urn:uuid:] prefix in any letter case; that layout between one leading
    and one trailing character; and 32 hexadecimal digits with no hyphen. *)
Theorem canonical_parser_layouts (s : string) (v : list byte) (id : ID) :
  succeeds_iff (accepted_layout s) (FromString s) /\
  succeeds_iff (accepted_layout s) (ID_Scan (any_string s) id) /\
  succeeds_iff (accepted_layout (string_of_list_byte v))
    (ID_Scan (any_bytes v) id).
Proof.
  split; [|split].
  - unfold succeeds_iff. destruct (accepted_layout s) eqn:E.
    + rewrite <- FromString_nil in E.
      destruct (snd (FromString s)); [discriminate | reflexivity].
    + now apply FromString_fails.
  - apply Scan_string_succeeds_iff.
  - generalize (Scan_string_succeeds_iff (string_of_list_byte v) id).
    unfold succeeds_iff, fails_with. cbn [ID_Scan].
    destruct (guuid.Parse (string_of_list_byte v)) as [u [e|]];
      destruct (accepted_layout (string_of_list_byte v)); cbn [snd];
      intros H; try exact H; try discriminate H.
    destruct H as (e' & He & Hk). inversion He. subst e'.
    eexists. split; [reflexivity | exact Hk].
Qed.

(** C4 fails as stated: 32 digits without hyphens, and the hyphenated form
    after [urn:uuid:], are not in the 36-character layout and are parsed. *)
Lemma FromString_accepts_other_forms :
  canonical_layout "8eca1fe1a8334de0b487b54785cc656e" = false /\
  FromString "8eca1fe1a8334de0b487b54785cc656e" = (FromUUID sample_UUID, None) /\
  ID_Scan (any_string "8eca1fe1a8334de0b487b54785cc656e") ID_zero =
    (FromUUID sample_UUID, None) /\
  canonical_layout "urn:uuid:8eca1fe1-a833-4de0-b487-b54785cc656e" = false /\
  FromString "urn:uuid:8eca1fe1-a833-4de0-b487-b54785cc656e" =
    (FromUUID sample_UUID, None).
Proof. repeat split; vm_compute; reflexivity. Qed.

(** C5, as the code has it.  [FromString] returns an [InvalidFormat] error
    for the empty string, for a canonical string with one character replaced
    by one its position does not allow, and for every proper prefix of a
    canonical string.  [Parse] returns an [InvalidFormat] error for a compact
    string with one character replaced by one outside the alphabet; it
    accepts the empty string, which decodes to the zero ID, and every prefix
    of a compact string, which decodes as if it were padded on the left with
    the alphabet's first symbol: to the number its digits spell, the same ID
    as with any number of those symbols in front. *)
Theorem malformed_input
  (x : guuid.UUID) (i n j m k : nat) (c d : ascii) (t : string) :
  guuid.wf x ->
  (i < 36)%nat -> allowed_at i c = false ->
  (n < 36)%nat ->
  (j < 22)%nat -> in_alphabet d = false ->
  (m < 22)%nat ->
  fails_with InvalidFormat (FromString EmptyString) /\
  fails_with InvalidFormat
    (FromString (string_set i c (ID_String (FromUUID x)))) /\
  fails_with InvalidFormat (FromString (slice_to n (ID_String (FromUUID x)))) /\
  fails_with InvalidFormat
    (Parse (string_set j d (ID_ShortString (FromUUID x)))) /\
  Parse EmptyString = (ID_zero, None) /\
  snd (Parse (slice_to m (ID_ShortString (FromUUID x)))) = None /\
  Parse (slice_to m (ID_ShortString (FromUUID x))) =
    (mkID (Z_to_be 16 (be_to_Z x / shortuuid.base ^ Z.of_nat (22 - m))), None) /\
  Parse (pad_left (22 - m) (slice_to m (ID_ShortString (FromUUID x)))) =
    Parse (slice_to m (ID_ShortString (FromUUID x))) /\
  Parse (pad_left k t) = Parse t.
Proof.
  intros Hx Hi Hc Hn Hj Hd Hm.
  unfold ID_String, ID_ShortString, FromUUID. cbn [UUID].
  repeat split.
  - apply FromString_fails. reflexivity.
  - apply FromString_fails, altered_not_accepted; try assumption.
    now apply String_length.
  - apply FromString_fails, truncated_not_accepted; assumption.
  - apply Parse_outside, string_set_outside; [|assumption].
    unfold shortuuid.Encode. rewrite numToString_length. exact Hj.
  - apply Parse_prefix; [assumption | lia].
  - apply Parse_prefix_value; [assumption | lia].
  - apply Parse_pad_left.
  - apply Parse_pad_left.
Qed.

Lemma malformed_input_sample :
  guuid.wf sample_UUID /\
  (8 < 36)%nat /\ allowed_at 8 "g" = false /\
  (35 < 36)%nat /\
  (21 < 22)%nat /\ in_alphabet "0" = false /\
  (21 < 22)%nat /\
  fails_with InvalidFormat (FromString EmptyString) /\
  fails_with InvalidFormat
    (FromString (string_set 8 "g" (ID_String (FromUUID sample_UUID)))) /\
  fails_with InvalidFormat
    (FromString (slice_to 35 (ID_String (FromUUID sample_UUID)))) /\
  fails_with InvalidFormat
    (Parse (string_set 21 "0" (ID_ShortString (FromUUID sample_UUID)))) /\
  Parse EmptyString = (ID_zero, None) /\
  snd (Parse (slice_to 21 (ID_ShortString (FromUUID sample_UUID)))) = None /\
  Parse (slice_to 21 (ID_ShortString (FromUUID sample_UUID))) =
    (mkID (Z_to_be 16
             (be_to_Z sample_UUID / shortuuid.base ^ Z.of_nat (22 - 21))),
     None) /\
  Parse (pad_left (22 - 21)
           (slice_to 21 (ID_ShortString (FromUUID sample_UUID)))) =
    Parse (slice_to 21 (ID_ShortString (FromUUID sample_UUID))) /\
  Parse (pad_left 3 "TR7kT7Y") = Parse "TR7kT7Y".
Proof.
  assert (H1 : guuid.wf sample_UUID) by reflexivity.
  assert (H2 : (8 < 36)%nat) by lia.
  assert (H3 : allowed_at 8 "g" = false) by reflexivity.
  assert (H4 : (35 < 36)%nat) by lia.
  assert (H5 : (21 < 22)%nat) by lia.
  assert (H6 : in_alphabet "0" = false) by reflexivity.
  repeat (split; [assumption|]).
  exact (malformed_input sample_UUID 8 35 21 21 3 "g" "0" "TR7kT7Y"
           H1 H2 H3 H4 H5 H6 H5).
Defined.

(** C5 fails as stated: [Parse] accepts the empty string and a compact
    string cut short by one character. *)
Lemma Parse_accepts_short_strings :
  Parse EmptyString = (ID_zero, None) /\
  slice_to 21 "TR7kT7YgYjHN5ET8Yagssh" = "TR7kT7YgYjHN5ET8Yagss" /\
  snd (Parse "TR7kT7YgYjHN5ET8Yagss") = None.
Proof. repeat split; vm_compute; reflexivity. Qed.

(** ** Storage values *)

(** C6, as the code has it.  For every non-nil storage value that is neither
    a string, nor a [[]byte], nor a [guuid.UUID], [ID.Scan] returns a
    [TypeMismatch] error and does not modify the receiver; every
    [guuid.UUID] value is accepted and stored in the receiver with no
    error. *)
Theorem Scan_type_mismatch (value : any) (u : guuid.UUID) (id : ID) :
  is_null value = false ->
  is_text value = false ->
  is_byte_sequence value = false ->
  is_raw_UUID value = false ->
  fails_with TypeMismatch (ID_Scan value id) /\
  fst (ID_Scan value id) = id /\
  ID_Scan (any_UUID u) id = (FromUUID u, None).
Proof.
  intros Hn Ht Hb Hu. destruct value as [|s|b|u'|T]; try discriminate.
  cbn [ID_Scan fst]. split; [|split; reflexivity].
  exists (cannotScan T). split; reflexivity.
Qed.

Lemma Scan_type_mismatch_sample :
  is_null (any_other "int64") = false /\
  is_text (any_other "int64") = false /\
  is_byte_sequence (any_other "int64") = false /\
  is_raw_UUID (any_other "int64") = false /\
  fails_with TypeMismatch (ID_Scan (any_other "int64") (FromUUID sample_UUID)) /\
  fst (ID_Scan (any_other "int64") (FromUUID sample_UUID)) =
    FromUUID sample_UUID /\
  ID_Scan (any_UUID (rev sample_UUID)) (FromUUID sample_UUID) =
    (FromUUID (rev sample_UUID), None).
Proof.
  repeat (split; [reflexivity|]).
  exact (Scan_type_mismatch (any_other "int64") (rev sample_UUID)
           (FromUUID sample_UUID) eq_refl eq_refl eq_refl eq_refl).
Defined.

(** C6 fails as stated: a [guuid.UUID] value is not nil, not a string and
    not a [[]byte], and [ID.Scan] stores it in the receiver with no error. *)
Lemma Scan_accepts_raw_UUID :
  is_null (any_UUID sample_UUID) = false /\
  is_text (any_UUID sample_UUID) = false /\
  is_byte_sequence (any_UUID sample_UUID) = false /\
  ID_Scan (any_UUID sample_UUID) ID_zero = (FromUUID sample_UUID, None) /\
  FromUUID sample_UUID <> ID_zero.
Proof. repeat split. discriminate. Qed.

(** C7. Reading a storage null never fails: [ID.Scan(nil)] returns no error
    and sets the receiver to the zero ID, and [NullableID.Scan(nil)] returns
    no error and marks the receiver invalid. *)
Theorem Scan_nil (id : ID) (nid : NullableID) :
  ID_Scan any_nil id = (ID_zero, None) /\
  ID_IsZero (fst (ID_Scan any_nil id)) = true /\
  snd (NullableID_Scan any_nil nid) = None /\
  Valid (fst (NullableID_Scan any_nil nid)) = false.
Proof. repeat split. Qed.

(** ** The nullable wrapper *)

Section JSONProperties.

Variable json_Marshal_string : string -> string.
Variable json_Unmarshal_string : string -> string * option error.

(** C8. [NewNullable] of the zero ID has [Valid == false] and [NewNullable]
    of any non-zero ID has [Valid == true]; unmarshaling the JSON null scalar
    into a [NullableID] yields [Valid == false] with no error; marshaling a
    [NullableID] with [Valid == false] yields exactly the JSON null scalar. *)
Theorem nullability (id : ID) (into nid : NullableID) :
  UUID id <> guuid.Nil ->
  Valid nid = false ->
  Valid (NewNullable ID_zero) = false /\
  Valid (NewNullable id) = true /\
  snd (NullableID_UnmarshalJSON json_Unmarshal_string "null" into) = None /\
  Valid (fst (NullableID_UnmarshalJSON json_Unmarshal_string "null" into)) = false /\
  NullableID_MarshalJSON json_Marshal_string nid = ("null", None).
Proof.
  intros Hid Hnid. repeat split.
  - unfold NewNullable, ID_IsZero. cbn [Valid].
    destruct (guuid.eqb (UUID id) guuid.Nil) eqn:E; [|reflexivity].
    apply guuid_eqb_eq in E. contradiction.
  - unfold NullableID_MarshalJSON. now rewrite Hnid.
Qed.

(** C9. For every input on which [ID.UnmarshalJSON], [ID.Scan],
    [NullableID.UnmarshalJSON] or [NullableID.Scan] returns an error, the
    receiver (the stored UUID and, for [NullableID], the [Valid] flag) is
    left as it was before the call. *)
Theorem receiver_kept_on_error
  (data : string) (value : any) (id : ID) (nid : NullableID) :
  (snd (ID_UnmarshalJSON json_Unmarshal_string data id) <> None ->
   fst (ID_UnmarshalJSON json_Unmarshal_string data id) = id) /\
  (snd (ID_Scan value id) <> None -> fst (ID_Scan value id) = id) /\
  (snd (NullableID_UnmarshalJSON json_Unmarshal_string data nid) <> None ->
   fst (NullableID_UnmarshalJSON json_Unmarshal_string data nid) = nid) /\
  (snd (NullableID_Scan value nid) <> None ->
   fst (NullableID_Scan value nid) = nid).
Proof.
  repeat split.
  - unfold ID_UnmarshalJSON.
    destruct (json_Unmarshal_string data) as [s [e|]]; cbn [fst snd];
      [reflexivity|].
    destruct (Parse s) as [parsed [e|]]; cbn [fst snd]; congruence.
  - destruct value as [|s|b|u|T]; cbn [ID_Scan]; try (cbn; congruence).
    + destruct (guuid.Parse s) as [u [e|]]; cbn [fst snd]; congruence.
    + destruct (guuid.Parse _) as [u [e|]]; cbn [fst snd]; congruence.
  - unfold NullableID_UnmarshalJSON.
    destruct (String.eqb data "null"); cbn [fst snd]; [congruence|].
    destruct (ID_UnmarshalJSON _ data ID_zero) as [i [e|]]; cbn [fst snd];
      congruence.
  - unfold NullableID_Scan.
    destruct value as [|s|b|u|T]; cbn [fst snd]; try congruence;
      destruct (ID_Scan _ ID_zero) as [i [e|]]; cbn [fst snd]; congruence.
Qed.

(** C10. When [NullableID.UnmarshalJSON] receives the literal [null], or
    [NullableID.Scan] receives nil, only the [Valid] flag is set to false:
    the [ID] field is not reset, so an ID stored in the receiver stays in the
    struct while it is marked invalid. *)
Theorem null_keeps_ID (nid : NullableID) :
  NullableID_UnmarshalJSON json_Unmarshal_string "null" nid =
    (mkNullableID (NullableID_ID nid) false, None) /\
  NullableID_Scan any_nil nid = (mkNullableID (NullableID_ID nid) false, None).
Proof. split; reflexivity. Qed.

End JSONProperties.

Lemma nullability_sample :
  UUID (FromUUID sample_UUID) <> guuid.Nil /\
  Valid (mkNullableID (FromUUID sample_UUID) false) = false /\
  Valid (NewNullable ID_zero) = false /\
  Valid (NewNullable (FromUUID sample_UUID)) = true /\
  snd (NullableID_UnmarshalJSON sample_Unmarshal_string "null"
         (NewNullable (FromUUID sample_UUID))) = None /\
  Valid (fst (NullableID_UnmarshalJSON sample_Unmarshal_string "null"
                (NewNullable (FromUUID sample_UUID)))) = false /\
  NullableID_MarshalJSON sample_Marshal_string
    (mkNullableID (FromUUID sample_UUID) false) = ("null", None).
Proof.
  assert (H1 : UUID (FromUUID sample_UUID) <> guuid.Nil) by discriminate.
  assert (H2 : Valid (mkNullableID (FromUUID sample_UUID) false) = false)
    by reflexivity.
  split; [exact H1|]. split; [exact H2|].
  exact (nullability sample_Marshal_string sample_Unmarshal_string
           (FromUUID sample_UUID) (NewNullable (FromUUID sample_UUID))
           (mkNullableID (FromUUID sample_UUID) false) H1 H2).
Defined.

Lemma receiver_kept_on_error_sample :
  snd (ID_UnmarshalJSON sample_Unmarshal_string sample_bad_data
         (FromUUID sample_UUID)) <> None /\
  fst (ID_UnmarshalJSON sample_Unmarshal_string sample_bad_data
         (FromUUID sample_UUID)) = FromUUID sample_UUID /\
  snd (ID_Scan (any_string "8eca1fe1") (FromUUID sample_UUID)) <> None /\
  fst (ID_Scan (any_string "8eca1fe1") (FromUUID sample_UUID)) =
    FromUUID sample_UUID /\
  snd (NullableID_UnmarshalJSON sample_Unmarshal_string sample_bad_data
         (NewNullable (FromUUID sample_UUID))) <> None /\
  fst (NullableID_UnmarshalJSON sample_Unmarshal_string sample_bad_data
         (NewNullable (FromUUID sample_UUID))) =
    NewNullable (FromUUID sample_UUID) /\
  snd (NullableID_Scan (any_string "8eca1fe1")
         (NewNullable (FromUUID sample_UUID))) <> None /\
  fst (NullableID_Scan (any_string "8eca1fe1")
         (NewNullable (FromUUID sample_UUID))) =
    NewNullable (FromUUID sample_UUID).
Proof.
  destruct (receiver_kept_on_error sample_Unmarshal_string sample_bad_data
              (any_string "8eca1fe1") (FromUUID sample_UUID)
              (NewNullable (FromUUID sample_UUID))) as (H1 & H2 & H3 & H4).
  assert (E1 : snd (ID_UnmarshalJSON sample_Unmarshal_string sample_bad_data
                      (FromUUID sample_UUID)) <> None) by discriminate.
  assert (E2 : snd (ID_Scan (any_string "8eca1fe1") (FromUUID sample_UUID))
               <> None) by discriminate.
  assert (E3 : snd (NullableID_UnmarshalJSON sample_Unmarshal_string
                      sample_bad_data (NewNullable (FromUUID sample_UUID)))
               <> None) by discriminate.
  assert (E4 : snd (NullableID_Scan (any_string "8eca1fe1")
                      (NewNullable (FromUUID sample_UUID))) <> None)
    by discriminate.
  repeat split; auto.
Defined.

(** ** Further properties of [id.go] *)

(** *** Parsed values are 16 bytes long *)

Lemma Z_to_be_length (k : nat) (n : Z) : List.length (Z_to_be k n) = k.
Proof.
  revert n. induction k as [|k IH]; intros n; cbn [Z_to_be].
  - reflexivity.
  - rewrite length_app, IH. cbn. lia.
Qed.

Lemma set_index_length {A : Type} (i : nat) (v : A) (l : list A) :
  List.length (set_index i v l) = List.length l.
Proof.
  revert i. induction l as [|x l IH]; intros [|i]; cbn; try reflexivity.
  now rewrite IH.
Qed.

Lemma parse_pairs_length (s : string) (xs : list nat) :
  forall (i : nat) (u : guuid.UUID),
    List.length (fst (guuid.parse_pairs s xs i u)) = List.length u.
Proof.
  induction xs as [|x xs IH]; intros i u; cbn [guuid.parse_pairs].
  - reflexivity.
  - destruct (guuid.xtob _ _) as [v [|]]; cbn [negb fst].
    + rewrite IH. apply set_index_length.
    + reflexivity.
Qed.

Lemma parse_raw_length (s : string) (n : nat) :
  forall (i : nat) (u : guuid.UUID),
    List.length (fst (guuid.parse_raw s n i u)) = List.length u.
Proof.
  induction n as [|n IH]; intros i u; cbn [guuid.parse_raw].
  - reflexivity.
  - destruct (guuid.xtob _ _) as [v [|]]; cbn [negb fst].
    + rewrite IH. apply set_index_length.
    + apply set_index_length.
Qed.

Lemma guuid_Parse_wf (s : string) : guuid.wf (fst (guuid.Parse s)).
Proof.
  assert (Hh : forall t, guuid.wf (fst (guuid.parse_hyphenated t))).
  { intros t. unfold guuid.parse_hyphenated, guuid.wf.
    destruct (guuid.hyphens_ok t); cbn [negb fst];
      [apply parse_pairs_length | reflexivity]. }
  unfold guuid.Parse.
  destruct (String.length s =? 36)%nat; [apply Hh|].
  destruct (String.length s =? 36 + 9)%nat.
  { destruct (guuid.EqualFold_urn _); cbn [negb fst];
      [apply Hh | reflexivity]. }
  destruct (String.length s =? 36 + 2)%nat; [apply Hh|].
  destruct (String.length s =? 32)%nat.
  - unfold guuid.wf. apply parse_raw_length.
  - reflexivity.
Qed.

Lemma Decode_wf (s : string) : guuid.wf (fst (shortuuid.Decode s)).
Proof.
  unfold shortuuid.Decode, guuid.wf.
  destruct (shortuuid.stringToNum s 0) as [n [e|]]; [reflexivity|].
  destruct (2 ^ 128 <=? n)%Z; cbn [fst]; [reflexivity|].
  apply Z_to_be_length.
Qed.

Lemma FromString_wf (s : string) : guuid.wf (UUID (fst (FromString s))).
Proof.
  unfold FromString. pose proof (guuid_Parse_wf s) as H.
  destruct (guuid.Parse s) as [u [e|]]; [reflexivity | exact H].
Qed.

Lemma Parse_wf (s : string) : guuid.wf (UUID (fst (Parse s))).
Proof.
  unfold Parse. pose proof (Decode_wf s) as H.
  destruct (shortuuid.Decode s) as [u [e|]]; [reflexivity | exact H].
Qed.

Lemma ID_eta (id : ID) : mkID (UUID id) = id.
Proof. destruct id; reflexivity. Qed.

Lemma ID_IsZero_eq (id : ID) : ID_IsZero id = true <-> id = ID_zero.
Proof.
  unfold ID_IsZero. rewrite guuid_eqb_eq. destruct id as [u]. cbn [UUID].
  unfold ID_zero. split; congruence.
Qed.

(** *** Equality and the zero ID *)

(** X1. [Equal] holds exactly when the two IDs are the same value, it does
    not depend on the order of its operands, and [IsZero] is [Equal] with the
    zero ID. *)
Theorem Equal_is_identity (a b : ID) :
  (ID_Equal a b = true <-> a = b) /\
  ID_Equal a b = ID_Equal b a /\
  ID_IsZero a = ID_Equal a ID_zero.
Proof.
  split; [|split].
  - unfold ID_Equal. rewrite guuid_eqb_eq.
    destruct a, b. cbn [UUID]. split; congruence.
  - unfold ID_Equal, guuid.eqb.
    destruct (list_eq_dec _ (UUID a) (UUID b)),
             (list_eq_dec _ (UUID b) (UUID a)); congruence.
  - reflexivity.
Qed.

(** *** The nullable constructors *)

(** X2. [NullableFromPtr] of the address of an ID is [NewNullable] of that
    ID, for a zero ID as well; and whatever either constructor returns has
    [Valid] set exactly when its ID is non-zero. *)
Theorem nullable_constructors (id : ID) (ptr : option ID) :
  NullableFromPtr (Some id) = NewNullable id /\
  consistent (NewNullable id) /\
  consistent (NullableFromPtr ptr).
Proof.
  assert (E : NullableFromPtr (Some id) = NewNullable id).
  { unfold NullableFromPtr, NewNullable.
    destruct (ID_IsZero id) eqn:Z; [|reflexivity].
    apply ID_IsZero_eq in Z. now subst. }
  split; [exact E|]. split; [reflexivity|].
  destruct ptr as [i|]; [|reflexivity].
  cbn [NullableFromPtr]. destruct (ID_IsZero i) eqn:Z.
  - reflexivity.
  - unfold consistent. cbn [Valid NullableID_ID]. now rewrite Z.
Qed.

(** X3. For a [NullableID] whose flag agrees with its ID, [NullableFromPtr]
    of [Ptr] gives the value back.  [Ptr] of [NullableFromPtr] gives the
    pointer back when it points to a non-zero ID, and nil otherwise. *)
Theorem Ptr_round_trip (nid : NullableID) (ptr : option ID) :
  consistent nid ->
  NullableFromPtr (NullableID_Ptr nid) = nid /\
  NullableID_Ptr (NullableFromPtr ptr) =
    match ptr with
    | Some id => if ID_IsZero id then None else Some id
    | None => None
    end.
Proof.
  intros H. split.
  - destruct nid as [id valid]. unfold consistent in H.
    cbn [Valid NullableID_ID] in H. unfold NullableID_Ptr. cbn [Valid NullableID_ID].
    destruct valid; cbn [negb NullableFromPtr].
    + destruct (ID_IsZero id); [discriminate | reflexivity].
    + destruct (ID_IsZero id) eqn:Z; [|discriminate].
      apply ID_IsZero_eq in Z. now subst.
  - destruct ptr as [id|]; [|reflexivity].
    cbn [NullableFromPtr]. destruct (ID_IsZero id); reflexivity.
Qed.

Lemma Ptr_round_trip_sample :
  consistent (NewNullable (FromUUID sample_UUID)) /\
  NullableFromPtr (NullableID_Ptr (NewNullable (FromUUID sample_UUID))) =
    NewNullable (FromUUID sample_UUID) /\
  NullableID_Ptr (NullableFromPtr (Some ID_zero)) =
    (if ID_IsZero ID_zero then None else Some ID_zero).
Proof.
  assert (H : consistent (NewNullable (FromUUID sample_UUID))) by reflexivity.
  split; [exact H|].
  exact (Ptr_round_trip (NewNullable (FromUUID sample_UUID)) (Some ID_zero) H).
Defined.

(** *** Storage *)

(** X4. What [Value] writes, [Scan] reads back: for every ID,
    [Scan(id.Value())] stores that ID with no error, and so does [Scan] of
    the same text handed over as bytes. *)
Theorem storage_round_trip (id receiver : ID) :
  guuid.wf (UUID id) ->
  ID_Scan (fst (ID_Value id)) receiver = (id, None) /\
  ID_Scan (any_bytes (list_byte_of_string (ID_String id))) receiver = (id, None).
Proof.
  intros H. unfold ID_Value, ID_String. cbn [fst ID_Scan].
  rewrite string_of_list_byte_of_string, Parse_String by assumption.
  now rewrite ID_eta.
Qed.

Lemma storage_round_trip_sample :
  guuid.wf (UUID (FromUUID sample_UUID)) /\
  ID_Scan (fst (ID_Value (FromUUID sample_UUID))) ID_zero =
    (FromUUID sample_UUID, None) /\
  ID_Scan (any_bytes (list_byte_of_string (ID_String (FromUUID sample_UUID))))
    ID_zero = (FromUUID sample_UUID, None).
Proof.
  split; [reflexivity|].
  exact (storage_round_trip (FromUUID sample_UUID) ID_zero eq_refl).
Defined.

(** X5. What [NullableID.Value] writes, [NullableID.Scan] reads back: a valid
    value comes back valid with the same ID; an invalid one is written as nil
    and comes back invalid, the receiver keeping the ID it held. *)
Theorem nullable_storage_round_trip (nid receiver : NullableID) :
  guuid.wf (UUID (NullableID_ID nid)) ->
  NullableID_Scan (fst (NullableID_Value nid)) receiver =
    (if Valid nid then mkNullableID (NullableID_ID nid) true
     else mkNullableID (NullableID_ID receiver) false, None).
Proof.
  intros H. unfold NullableID_Value.
  destruct (Valid nid); cbn [negb fst]; [|reflexivity].
  unfold ID_Value, NullableID_Scan. cbn [fst ID_Scan].
  rewrite Parse_String by assumption. now rewrite ID_eta.
Qed.

Lemma nullable_storage_round_trip_sample :
  guuid.wf (UUID (NullableID_ID (NewNullable (FromUUID sample_UUID)))) /\
  NullableID_Scan (fst (NullableID_Value (NewNullable (FromUUID sample_UUID))))
    (NewNullable ID_zero) =
    (if Valid (NewNullable (FromUUID sample_UUID))
     then mkNullableID (NullableID_ID (NewNullable (FromUUID sample_UUID))) true
     else mkNullableID (NullableID_ID (NewNullable ID_zero)) false, None).
Proof.
  split; [reflexivity|].
  exact (nullable_storage_round_trip (NewNullable (FromUUID sample_UUID))
           (NewNullable ID_zero) eq_refl).
Defined.

(** X6. [Scan] of a string succeeds exactly when [FromString] of that string
    does, and then stores the ID [FromString] returns; when it fails the
    receiver is kept.  [Scan] of bytes behaves as [Scan] of the string made
    of those bytes. *)
Theorem Scan_as_FromString (s : string) (v : list byte) (receiver : ID) :
  is_nil (snd (ID_Scan (any_string s) receiver)) = is_nil (snd (FromString s)) /\
  fst (ID_Scan (any_string s) receiver) =
    (if is_nil (snd (FromString s)) then fst (FromString s) else receiver) /\
  is_nil (snd (ID_Scan (any_bytes v) receiver)) =
    is_nil (snd (ID_Scan (any_string (string_of_list_byte v)) receiver)) /\
  fst (ID_Scan (any_bytes v) receiver) =
    fst (ID_Scan (any_string (string_of_list_byte v)) receiver).
Proof.
  unfold FromString. cbn [ID_Scan].
  destruct (guuid.Parse s) as [u [e|]];
    destruct (guuid.Parse (string_of_list_byte v)) as [u' [e'|]];
    repeat split.
Qed.

(** X7. When [NullableID.Scan] is given a value other than nil that
    [ID.Scan] accepts, it stores the scanned ID and sets [Valid], whether or
    not that ID is zero: scanning the zero UUID gives a valid zero ID, which
    [NewNullable] never does. *)
Theorem nullable_Scan_marks_valid (value : any) (nid : NullableID) :
  is_null value = false ->
  snd (ID_Scan value ID_zero) = None ->
  NullableID_Scan value nid =
    (mkNullableID (fst (ID_Scan value ID_zero)) true, None) /\
  NullableID_Scan (any_UUID guuid.Nil) nid = (mkNullableID ID_zero true, None) /\
  Valid (NewNullable ID_zero) = false.
Proof.
  intros Hn Hs. split; [|split; reflexivity].
  unfold NullableID_Scan.
  destruct value as [|s|b|u|T]; try discriminate;
    destruct (ID_Scan _ ID_zero) as [i [e|]]; try discriminate; reflexivity.
Qed.

Lemma nullable_Scan_marks_valid_sample :
  is_null (any_string "00000000-0000-0000-0000-000000000000") = false /\
  snd (ID_Scan (any_string "00000000-0000-0000-0000-000000000000") ID_zero) =
    None /\
  NullableID_Scan (any_string "00000000-0000-0000-0000-000000000000")
    (NewNullable ID_zero) =
    (mkNullableID
       (fst (ID_Scan (any_string "00000000-0000-0000-0000-000000000000")
               ID_zero)) true, None) /\
  NullableID_Scan (any_UUID guuid.Nil) (NewNullable ID_zero) =
    (mkNullableID ID_zero true, None) /\
  Valid (NewNullable ID_zero) = false.
Proof.
  split; [reflexivity|]. split; [reflexivity|].
  exact (nullable_Scan_marks_valid
           (any_string "00000000-0000-0000-0000-000000000000")
           (NewNullable ID_zero) eq_refl eq_refl).
Defined.

(** *** The two texts of one ID *)

(** X8. An ID that [FromString] or [Parse] returned without error converts
    to both texts and back: [Parse] of its [ShortString] and [FromString] of
    its [String] return it again, whichever text it was read from. *)
Theorem parsed_ID_round_trips (s : string) (id : ID) :
  FromString s = (id, None) \/ Parse s = (id, None) ->
  Parse (ID_ShortString id) = (id, None) /\
  FromString (ID_String id) = (id, None).
Proof.
  intros H.
  assert (Hw : guuid.wf (UUID id)).
  { destruct H as [H|H].
    - pose proof (FromString_wf s) as W. now rewrite H in W.
    - pose proof (Parse_wf s) as W. now rewrite H in W. }
  unfold Parse, FromString, ID_ShortString, ID_String.
  rewrite Decode_Encode, Parse_String by assumption.
  now rewrite ID_eta.
Qed.

Lemma parsed_ID_round_trips_sample :
  (FromString "8ECA1FE1-A833-4DE0-B487-B54785CC656E" =
     (FromUUID sample_UUID, None) \/
   Parse "8ECA1FE1-A833-4DE0-B487-B54785CC656E" =
     (FromUUID sample_UUID, None)) /\
  Parse (ID_ShortString (FromUUID sample_UUID)) = (FromUUID sample_UUID, None) /\
  FromString (ID_String (FromUUID sample_UUID)) = (FromUUID sample_UUID, None).
Proof.
  assert (H : FromString "8ECA1FE1-A833-4DE0-B487-B54785CC656E" =
                (FromUUID sample_UUID, None) \/
              Parse "8ECA1FE1-A833-4DE0-B487-B54785CC656E" =
                (FromUUID sample_UUID, None)) by (left; reflexivity).
  split; [exact H|].
  exact (parsed_ID_round_trips "8ECA1FE1-A833-4DE0-B487-B54785CC656E"
           (FromUUID sample_UUID) H).
Defined.

(** X9. Two 16-byte IDs with the same compact text, or with the same
    canonical text, are the same ID. *)
Theorem texts_identify_ID (a b : ID) :
  guuid.wf (UUID a) -> guuid.wf (UUID b) ->
  (ID_ShortString a = ID_ShortString b <-> a = b) /\
  (ID_String a = ID_String b <-> a = b).
Proof.
  intros Ha Hb. split; (split; [|congruence]); intros E.
  - pose proof (Decode_Encode (UUID a) Ha) as Da.
    pose proof (Decode_Encode (UUID b) Hb) as Db.
    unfold ID_ShortString in E. rewrite E in Da.
    rewrite <- (ID_eta a), <- (ID_eta b). congruence.
  - pose proof (Parse_String (UUID a) Ha) as Da.
    pose proof (Parse_String (UUID b) Hb) as Db.
    unfold ID_String in E. rewrite E in Da.
    rewrite <- (ID_eta a), <- (ID_eta b). congruence.
Qed.

Lemma texts_identify_ID_sample :
  guuid.wf (UUID (FromUUID sample_UUID)) /\ guuid.wf (UUID ID_zero) /\
  (ID_ShortString (FromUUID sample_UUID) = ID_ShortString ID_zero <->
   FromUUID sample_UUID = ID_zero) /\
  (ID_String (FromUUID sample_UUID) = ID_String ID_zero <->
   FromUUID sample_UUID = ID_zero).
Proof.
  split; [reflexivity|]. split; [reflexivity|].
  exact (texts_identify_ID (FromUUID sample_UUID) ID_zero eq_refl eq_refl).
Defined.

(** X10. When [Parse] or [FromString] returns an error, the ID it returns
    with it is the zero ID, never a partly decoded value. *)
Theorem zero_ID_on_error (s t : string) :
  snd (Parse s) <> None ->
  snd (FromString t) <> None ->
  fst (Parse s) = ID_zero /\ fst (FromString t) = ID_zero.
Proof.
  unfold Parse, FromString.
  destruct (shortuuid.Decode s) as [u [e|]];
    destruct (guuid.Parse t) as [u' [e'|]]; cbn [fst snd];
    intros H1 H2; try congruence.
  split; reflexivity.
Qed.

Lemma zero_ID_on_error_sample :
  snd (Parse "TR7kT7YgYjHN5ET8Yagss0") <> None /\
  snd (FromString "8eca1fe1-a833-4de0-b487-b54785cc656g") <> None /\
  fst (Parse "TR7kT7YgYjHN5ET8Yagss0") = ID_zero /\
  fst (FromString "8eca1fe1-a833-4de0-b487-b54785cc656g") = ID_zero.
Proof.
  assert (H1 : snd (Parse "TR7kT7YgYjHN5ET8Yagss0") <> None) by discriminate.
  assert (H2 : snd (FromString "8eca1fe1-a833-4de0-b487-b54785cc656g") <> None)
    by discriminate.
  split; [exact H1|]. split; [exact H2|].
  exact (zero_ID_on_error "TR7kT7YgYjHN5ET8Yagss0"
           "8eca1fe1-a833-4de0-b487-b54785cc656g" H1 H2).
Defined.

Lemma hex_digit_chars (v : byte) :
  is_hex_digit (guuid.hex_hi v) = true /\ is_hex_digit (guuid.hex_lo v) = true /\
  guuid.to_lower (guuid.hex_hi v) = guuid.hex_hi v /\
  guuid.to_lower (guuid.hex_lo v) = guuid.hex_lo v.
Proof. destruct v; vm_compute; repeat split. Qed.

Lemma numToString_alphabet (k : nat) :
  forall (n : Z) (out : string),
    (0 <= n)%Z ->
    string_forallb in_alphabet out = true ->
    string_forallb in_alphabet (shortuuid.numToString k n out) = true.
Proof.
  induction k as [|k IH]; intros n out Hn Hout; cbn [shortuuid.numToString].
  - exact Hout.
  - assert (Hb : (0 < shortuuid.base)%Z) by (unfold shortuuid.base; lia).
    apply IH; [apply Z.div_pos; lia|].
    cbn [string_forallb]. rewrite Hout, andb_true_r.
    destruct (in_alphabet _) eqn:E; [reflexivity|].
    apply Index_None in E.
    rewrite Index_digit in E by (apply Z.mod_pos_bound; lia). discriminate.
Qed.

(** X11. The texts of a 16-byte ID have a fixed shape: [ShortString] is 22
    characters of the compact alphabet; [String] is 36 characters in the
    hyphenated layout, with no upper-case letter. *)
Theorem text_shapes (id : ID) :
  guuid.wf (UUID id) ->
  String.length (ID_ShortString id) = 22%nat /\
  string_forallb in_alphabet (ID_ShortString id) = true /\
  String.length (ID_String id) = 36%nat /\
  canonical_layout (ID_String id) = true /\
  string_map guuid.to_lower (ID_String id) = ID_String id.
Proof.
  intros H. unfold ID_ShortString, ID_String, shortuuid.Encode.
  split; [apply numToString_length|].
  split; [apply numToString_alphabet; [apply be_to_Z_range | reflexivity]|].
  split; [now apply String_length|].
  unfold guuid.wf in H. destruct id as [u]. cbn [UUID] in *.
  do 17 (destruct u as [|? u]; try discriminate H). clear H.
  split.
  - unfold canonical_layout, layout_at.
    cbn -[is_hex_digit guuid.hex_hi guuid.hex_lo].
    repeat match goal with
           | |- context [is_hex_digit (guuid.hex_hi ?v)] =>
               rewrite (proj1 (hex_digit_chars v))
           | |- context [is_hex_digit (guuid.hex_lo ?v)] =>
               rewrite (proj1 (proj2 (hex_digit_chars v)))
           end.
    reflexivity.
  - cbn -[guuid.to_lower guuid.hex_hi guuid.hex_lo].
    repeat match goal with
           | |- context [guuid.to_lower (guuid.hex_hi ?v)] =>
               rewrite (proj1 (proj2 (proj2 (hex_digit_chars v))))
           | |- context [guuid.to_lower (guuid.hex_lo ?v)] =>
               rewrite (proj2 (proj2 (proj2 (hex_digit_chars v))))
           end.
    reflexivity.
Qed.

Lemma text_shapes_sample :
  guuid.wf (UUID (FromUUID sample_UUID)) /\
  String.length (ID_ShortString (FromUUID sample_UUID)) = 22%nat /\
  string_forallb in_alphabet (ID_ShortString (FromUUID sample_UUID)) = true /\
  String.length (ID_String (FromUUID sample_UUID)) = 36%nat /\
  canonical_layout (ID_String (FromUUID sample_UUID)) = true /\
  string_map guuid.to_lower (ID_String (FromUUID sample_UUID)) =
    ID_String (FromUUID sample_UUID).
Proof.
  split; [reflexivity|].
  exact (text_shapes (FromUUID sample_UUID) eq_refl).
Defined.

(** *** JSON *)

Section JSONRoundTrips.

Variable json_Marshal_string : string -> string.
Variable json_Unmarshal_string : string -> string * option error.

(** X12. If [encoding/json] decodes the text it writes for the compact
    string of an ID back to that string, then [UnmarshalJSON] of
    [MarshalJSON] stores the ID with no error. *)
Theorem JSON_round_trip (id receiver : ID) :
  guuid.wf (UUID id) ->
  json_Unmarshal_string (json_Marshal_string (ID_ShortString id)) =
    (ID_ShortString id, None) ->
  ID_UnmarshalJSON json_Unmarshal_string
    (fst (ID_MarshalJSON json_Marshal_string id)) receiver = (id, None).
Proof.
  intros Hw Hj. unfold ID_MarshalJSON, ID_UnmarshalJSON. cbn [fst].
  rewrite Hj. unfold Parse, ID_ShortString.
  rewrite Decode_Encode by assumption. now rewrite ID_eta.
Qed.

(** X13. Under the same condition, and when the text written for a string is
    not [null], [NullableID.UnmarshalJSON] of [NullableID.MarshalJSON] gives
    a valid value back valid with the same ID, and an invalid one back
    invalid, the receiver keeping the ID it held. *)
Theorem nullable_JSON_round_trip (nid receiver : NullableID) :
  guuid.wf (UUID (NullableID_ID nid)) ->
  json_Unmarshal_string
    (json_Marshal_string (ID_ShortString (NullableID_ID nid))) =
    (ID_ShortString (NullableID_ID nid), None) ->
  String.eqb (json_Marshal_string (ID_ShortString (NullableID_ID nid))) "null"
    = false ->
  NullableID_UnmarshalJSON json_Unmarshal_string
    (fst (NullableID_MarshalJSON json_Marshal_string nid)) receiver =
    (if Valid nid then mkNullableID (NullableID_ID nid) true
     else mkNullableID (NullableID_ID receiver) false, None).
Proof.
  intros Hw Hj Hn. unfold NullableID_MarshalJSON.
  destruct (Valid nid); cbn [negb]; [|reflexivity].
  unfold NullableID_UnmarshalJSON, ID_MarshalJSON. cbn [fst]. rewrite Hn.
  unfold ID_UnmarshalJSON. rewrite Hj. unfold Parse, ID_ShortString.
  rewrite Decode_Encode by assumption. now rewrite ID_eta.
Qed.

(** X14. A JSON text that [encoding/json] decodes into the empty string, as
    it does the empty string literal and [null], is accepted by
    [ID.UnmarshalJSON] and stores the zero ID; [NullableID.UnmarshalJSON]
    then marks that zero ID valid, unless the text is exactly [null]. *)
Theorem empty_string_is_zero_ID (data : string) (id : ID) (nid : NullableID) :
  json_Unmarshal_string data = (EmptyString, None) ->
  String.eqb data "null" = false ->
  ID_UnmarshalJSON json_Unmarshal_string data id = (ID_zero, None) /\
  NullableID_UnmarshalJSON json_Unmarshal_string data nid =
    (mkNullableID ID_zero true, None).
Proof.
  intros Hj Hn.
  assert (E : forall i, ID_UnmarshalJSON json_Unmarshal_string data i =
                        (ID_zero, None)).
  { intros i. unfold ID_UnmarshalJSON. rewrite Hj. reflexivity. }
  split; [apply E|].
  unfold NullableID_UnmarshalJSON. rewrite Hn, E. reflexivity.
Qed.

End JSONRoundTrips.

Lemma JSON_round_trip_sample :
  guuid.wf (UUID (FromUUID sample_UUID)) /\
  sample_Unmarshal_string
    (sample_Marshal_string (ID_ShortString (FromUUID sample_UUID))) =
    (ID_ShortString (FromUUID sample_UUID), None) /\
  ID_UnmarshalJSON sample_Unmarshal_string
    (fst (ID_MarshalJSON sample_Marshal_string (FromUUID sample_UUID)))
    ID_zero = (FromUUID sample_UUID, None).
Proof.
  split; [reflexivity|]. split; [reflexivity|].
  exact (JSON_round_trip sample_Marshal_string sample_Unmarshal_string
           (FromUUID sample_UUID) ID_zero eq_refl eq_refl).
Defined.

Lemma nullable_JSON_round_trip_sample :
  guuid.wf (UUID (NullableID_ID (NewNullable (FromUUID sample_UUID)))) /\
  sample_Unmarshal_string
    (sample_Marshal_string
       (ID_ShortString (NullableID_ID (NewNullable (FromUUID sample_UUID))))) =
    (ID_ShortString (NullableID_ID (NewNullable (FromUUID sample_UUID))), None) /\
  String.eqb
    (sample_Marshal_string
       (ID_ShortString (NullableID_ID (NewNullable (FromUUID sample_UUID)))))
    "null" = false /\
  NullableID_UnmarshalJSON sample_Unmarshal_string
    (fst (NullableID_MarshalJSON sample_Marshal_string
            (NewNullable (FromUUID sample_UUID))))
    (NewNullable ID_zero) =
    (if Valid (NewNullable (FromUUID sample_UUID))
     then mkNullableID (NullableID_ID (NewNullable (FromUUID sample_UUID))) true
     else mkNullableID (NullableID_ID (NewNullable ID_zero)) false, None).
Proof.
  split; [reflexivity|]. split; [reflexivity|]. split; [reflexivity|].
  exact (nullable_JSON_round_trip sample_Marshal_string sample_Unmarshal_string
           (NewNullable (FromUUID sample_UUID)) (NewNullable ID_zero)
           eq_refl eq_refl eq_refl).
Defined.

Lemma empty_string_is_zero_ID_sample :
  sample_Unmarshal_string sample_empty_data = (EmptyString, None) /\
  String.eqb sample_empty_data "null" = false /\
  ID_UnmarshalJSON sample_Unmarshal_string sample_empty_data
    (FromUUID sample_UUID) = (ID_zero, None) /\
  NullableID_UnmarshalJSON sample_Unmarshal_string sample_empty_data
    (NewNullable (FromUUID sample_UUID)) = (mkNullableID ID_zero true, None).
Proof.
  split; [reflexivity|]. split; [reflexivity|].
  exact (empty_string_is_zero_ID sample_Unmarshal_string sample_empty_data
           (FromUUID sample_UUID) (NewNullable (FromUUID sample_UUID))
           eq_refl eq_refl).
Defined.
